(** * translate.hh: address spaces, join records and the translation interface

    A shallow embedding of the classes declared in
    [Ghidra/Features/Decompiler/src/decompile/cpp/translate.hh] and of the
    functions the header defines inline.

    Conventions.
    - Unsigned machine integers ([uintb], [uintm], [uint4], [uint1]) are
      values of [N], signed ones ([int4]) values of [Z]; a conversion between
      widths is written out where the code performs one.
    - A pointer ([AddrSpace *], [AddressResolver *]) is the address it holds,
      an [N]; the null pointer is [0].
    - [std::vector] is a [list]; [operator[]] outside the bounds has no
      defined result, which [vector_at] makes explicit.
    - A mutating member function takes the object and returns the new one. *)

From Stdlib Require Import ZArith NArith Lia.
From stdpp Require Import base tactics option list numbers strings sorting gmap.

(** ** Machine integers and pointers *)

Abbreviation uintb := N (only parsing).
Abbreviation uintm := N (only parsing).
Abbreviation uint4 := N (only parsing).
Abbreviation int4 := Z (only parsing).
Abbreviation AddrSpacePtr := N (only parsing).
Abbreviation AddressResolverPtr := N (only parsing).

Definition nullptr : N := 0%N.

(** Conversion of an unsigned value to the 8-byte [uintb]. *)
Definition to_uintb (n : N) : uintb := (n mod 2 ^ 64)%N.

(** Conversion of an integer to the 4-byte signed [int4]. *)
Definition to_int4 (z : Z) : int4 := ((z + 2 ^ 31) mod 2 ^ 32 - 2 ^ 31)%Z.

(** The result of an expression that C++ leaves undefined on some inputs. *)
Inductive outcome (A : Type) : Type :=
| Returns (a : A)
| Undefined.
Arguments Returns {A} a.
Arguments Undefined {A}.

(** [v[i]] on a [std::vector] with an [int4] index: the index is converted to
    the unsigned [size_type], so a negative one is out of bounds like one
    past the end, and the access is unchecked. *)
Definition vector_at {A : Type} (v : list A) (i : int4) : outcome A :=
  if decide (0 <= i)%Z then
    match v !! Z.to_nat i with
    | Some a => Returns a
    | None => Undefined
    end
  else Undefined.

(** ** Errors of the translation unit *)

(** [LowlevelError] is declared in error.hh, which is not part of the sources;
    its constructor keeps the description it is given. *)
Record LowlevelError : Type := mkLowlevelError { explain : string }.

Record UnimplError : Type := mkUnimplError {
  UnimplError_super : LowlevelError;
  instruction_length : int4
}.

(** [UnimplError(const string &s,int4 l) : LowlevelError(s) { instruction_length = l; }] *)
Definition UnimplError_new (s : string) (l : int4) : UnimplError :=
  {| UnimplError_super := mkLowlevelError s; instruction_length := l |}.

Record BadDataError : Type := mkBadDataError { BadDataError_super : LowlevelError }.

(** [BadDataError(const string &s) : LowlevelError(s) {}] *)
Definition BadDataError_new (s : string) : BadDataError :=
  {| BadDataError_super := mkLowlevelError s |}.

(** ** Tags of the packed pcode format (the anonymous enum of [PcodeEmit]) *)

Inductive PackedTag : Type :=
| unimpl_tag
| inst_tag
| op_tag
| void_tag
| spaceid_tag
| addrsz_tag
| end_tag.

Definition tag_value (t : PackedTag) : N :=
  match t with
  | unimpl_tag => 0x20
  | inst_tag => 0x21
  | op_tag => 0x22
  | void_tag => 0x23
  | spaceid_tag => 0x24
  | addrsz_tag => 0x25
  | end_tag => 0x60
  end%N.

(** The enumerators in declaration order. *)
Definition packed_tags : list PackedTag :=
  [unimpl_tag; inst_tag; op_tag; void_tag; spaceid_tag; addrsz_tag; end_tag].

(** ** Addresses and varnodes *)

(** [Address] (address.hh) and [VarnodeData] (pcoderaw.hh) are plain values:
    a space with an offset, and a space with an offset and a size in bytes. *)
Module Address.
Record t : Type := mk { base : AddrSpacePtr; offset : uintb }.
End Address.

Module VarnodeData.
Record t : Type := mk { space : AddrSpacePtr; offset : uintb; size : uint4 }.
End VarnodeData.

(** ** JoinRecord *)

Record JoinRecord : Type := mkJoinRecord {
  pieces : list VarnodeData.t;
  unified : VarnodeData.t
}.

Definition numPieces (r : JoinRecord) : int4 :=
  to_int4 (Z.of_nat (length (pieces r))).

Definition isFloatExtension (r : JoinRecord) : bool :=
  bool_decide (length (pieces r) = 1).

Definition getPiece (r : JoinRecord) (i : int4) : outcome VarnodeData.t :=
  vector_at (pieces r) i.

Definition getUnified (r : JoinRecord) : VarnodeData.t := unified r.

(** The sum of the sizes of a list of pieces. *)
Definition sum_sizes (ps : list VarnodeData.t) : N :=
  foldr (fun p acc => (VarnodeData.size p + acc)%N) 0%N ps.

(** A float-extension record in the sense of the data model: exactly one
    piece, and a unified size strictly greater than the size of that piece. *)
Definition float_extension_record (r : JoinRecord) : bool :=
  match pieces r with
  | [p] => (VarnodeData.size p <? VarnodeData.size (unified r))%N
  | _ => false
  end.

(** ** AddrSpaceManager *)

Record AddrSpaceManager : Type := mkAddrSpaceManager {
  baselist : list AddrSpacePtr;
  resolvelist : list AddressResolverPtr;
  name2Space : gmap string AddrSpacePtr;
  shortcut2Space : gmap Z AddrSpacePtr;
  constantspace : AddrSpacePtr;
  defaultspace : AddrSpacePtr;
  iopspace : AddrSpacePtr;
  fspecspace : AddrSpacePtr;
  joinspace : AddrSpacePtr;
  stackspace : AddrSpacePtr;
  uniqspace : AddrSpacePtr;
  joinallocate : uintb;
  splitset : list JoinRecord;
  splitlist : list JoinRecord
}.

Definition getIopSpace (m : AddrSpaceManager) : AddrSpacePtr := iopspace m.
Definition getFspecSpace (m : AddrSpaceManager) : AddrSpacePtr := fspecspace m.
Definition getJoinSpace (m : AddrSpaceManager) : AddrSpacePtr := joinspace m.
Definition getStackSpace (m : AddrSpaceManager) : AddrSpacePtr := stackspace m.
Definition getUniqueSpace (m : AddrSpaceManager) : AddrSpacePtr := uniqspace m.
Definition getDefaultSpace (m : AddrSpaceManager) : AddrSpacePtr := defaultspace m.
Definition getConstantSpace (m : AddrSpaceManager) : AddrSpacePtr := constantspace m.

(** [return Address(constantspace,val);] *)
Definition getConstant (m : AddrSpaceManager) (val : uintb) : Address.t :=
  Address.mk (constantspace m) val.

(** [return Address(constantspace,(uintb)(uintp)spc);] the pointer is read as
    an unsigned integer and widened to [uintb]. *)
Definition createConstFromSpace (m : AddrSpaceManager) (spc : AddrSpacePtr) : Address.t :=
  Address.mk (constantspace m) (to_uintb spc).

(** [return baselist.size();] converted to the [int4] result type. *)
Definition numSpaces (m : AddrSpaceManager) : int4 :=
  to_int4 (Z.of_nat (length (baselist m))).

(** [return baselist[i];] *)
Definition getSpace (m : AddrSpaceManager) (i : int4) : outcome AddrSpacePtr :=
  vector_at (baselist m) i.

(** ** Translate *)

(** [FloatFormat] is declared in float.hh, which is not part of the sources;
    only the size in bytes, by which a format is looked up, is kept. *)
Record FloatFormat : Type := mkFloatFormat { float_size : int4 }.

Record Translate : Type := mkTranslate {
  manager : AddrSpaceManager;
  target_isbigendian : bool;
  unique_base : uintm;
  alignment : int4;
  floatformats : list FloatFormat
}.

(** [target_isbigendian = val;] *)
Definition setBigEndian (t : Translate) (val : bool) : Translate :=
  {| manager := manager t; target_isbigendian := val; unique_base := unique_base t;
     alignment := alignment t; floatformats := floatformats t |}.

(** [if (val>unique_base) unique_base = val;] *)
Definition setUniqueBase (t : Translate) (val : uintm) : Translate :=
  if (unique_base t <? val)%N then
    {| manager := manager t; target_isbigendian := target_isbigendian t; unique_base := val;
       alignment := alignment t; floatformats := floatformats t |}
  else t.

Definition isBigEndian (t : Translate) : bool := target_isbigendian t.
Definition getAlignment (t : Translate) : int4 := alignment t.
Definition getUniqueBase (t : Translate) : uintm := unique_base t.

(** The virtual member functions with a body in the base class; each body is
    empty. *)
Definition registerContext (t : Translate) (name : string) (sbit ebit : int4) : Translate := t.
Definition setContextDefault (t : Translate) (name : string) (val : uintm) : Translate := t.
Definition allowContextSet (t : Translate) (val : bool) : Translate := t.

(** A run of [setUniqueBase] calls, in order. *)
Definition setUniqueBase_all (t : Translate) (vals : list uintm) : Translate :=
  foldl setUniqueBase t vals.

(** ** The join space: de-duplication set, allocation and reverse lookup

    The header declares [JoinRecord::operator<], [findAddJoin], [findJoin]
    and the constructor of the manager; their bodies are in translate.cc,
    which is not part of the sources.  [JoinRecordCompare], the two
    containers and the cursor are the header's. *)

(** [std::set<T,Compare>] as the list of its elements in increasing order.
    [find] returns the element equivalent to the key (neither is less than the
    other); [insert] puts the key at its place unless an equivalent element
    is present. *)
Definition set_find {A : Type} (lt : A -> A -> bool) (x : A) (s : list A) : option A :=
  find (fun e => negb (lt e x) && negb (lt x e)) s.

Fixpoint set_insert {A : Type} (lt : A -> A -> bool) (x : A) (s : list A) : list A :=
  match s with
  | [] => [x]
  | e :: s' =>
      if lt x e then x :: e :: s'
      else if lt e x then e :: set_insert lt x s'
      else e :: s'
  end.

(** Whether an offset of the join space lies in the unified location of a
    record, that is in the range allocated to it. *)
Definition in_unified (r : JoinRecord) (off : uintb) : bool :=
  (VarnodeData.offset (unified r) <=? off)%N
  && (off <? VarnodeData.offset (unified r) + VarnodeData.size (unified r))%N.

Section Join.

(** [AddrSpace::getIndex] (space.hh, not part of the sources): the index of
    the space a pointer refers to. *)
Variable getIndex : AddrSpacePtr -> int4.

(** Modelled from the spec: the comparison of two [VarnodeData] (pcoderaw.hh
    is missing), "by space-index, then offset, then size". *)
Definition VarnodeData_lt (a b : VarnodeData.t) : bool :=
  if decide (getIndex (VarnodeData.space a) = getIndex (VarnodeData.space b)) then
    if decide (VarnodeData.offset a = VarnodeData.offset b) then
      (VarnodeData.size a <? VarnodeData.size b)%N
    else (VarnodeData.offset a <? VarnodeData.offset b)%N
  else (getIndex (VarnodeData.space a) <? getIndex (VarnodeData.space b))%Z.

(** Modelled from the spec: the body of [JoinRecord::operator<] (translate.cc
    is missing), which the header documents as "Compare records
    lexigraphically by pieces" and the spec as "a total order over the piece
    sequence (lexicographic by space-index, then offset, then size)". *)
Fixpoint pieces_lt (ps qs : list VarnodeData.t) : bool :=
  match ps, qs with
  | [], [] => false
  | [], _ :: _ => true
  | _ :: _, [] => false
  | p :: ps', q :: qs' =>
      if VarnodeData_lt p q then true
      else if VarnodeData_lt q p then false
      else pieces_lt ps' qs'
  end.

Definition JoinRecord_lt (a b : JoinRecord) : bool :=
  pieces_lt (pieces a) (pieces b).

(** [bool operator()(const JoinRecord *a,const JoinRecord *b) const { return *a < *b; }] *)
Definition JoinRecordCompare (a b : JoinRecord) : bool := JoinRecord_lt a b.

(** Modelled from the spec: the body of [AddrSpaceManager::findAddJoin]
    (translate.cc is missing).  The piece list is looked up in the
    de-duplication set; "on hit, returns the existing record unchanged"; on
    miss the record takes "the next offset in the join space", its unified
    size is "max(sum of piece sizes, logicalsize)", and it is inserted "into
    both the de-dup set and the offset-indexed list".  The cursor is
    "monotonically increasing, never reclaimed": it moves past the unified
    location and is not reduced modulo a word size.  Two records are equal
    "iff their piece sequences are identical in order, space, offset, and
    size", so the key of the lookup is the piece list as it is given. *)
Definition findAddJoin (m : AddrSpaceManager) (pcs : list VarnodeData.t) (logicalsize : uint4)
  : JoinRecord * AddrSpaceManager :=
  let testnode := {| pieces := pcs; unified := VarnodeData.mk nullptr 0 0 |} in
  match set_find JoinRecordCompare testnode (splitset m) with
  | Some rec => (rec, m)
  | None =>
      let totalsize := N.max (sum_sizes pcs) logicalsize in
      let newjoin :=
        {| pieces := pcs;
           unified := VarnodeData.mk (joinspace m) (joinallocate m) totalsize |} in
      (newjoin,
       {| baselist := baselist m;
          resolvelist := resolvelist m;
          name2Space := name2Space m;
          shortcut2Space := shortcut2Space m;
          constantspace := constantspace m;
          defaultspace := defaultspace m;
          iopspace := iopspace m;
          fspecspace := fspecspace m;
          joinspace := joinspace m;
          stackspace := stackspace m;
          uniqspace := uniqspace m;
          joinallocate := (joinallocate m + totalsize)%N;
          splitset := set_insert JoinRecordCompare newjoin (splitset m);
          splitlist := splitlist m ++ [newjoin] |})
  end.

(** A run of [findAddJoin] calls, in order, with the records they return. *)
Fixpoint findAddJoin_all (m : AddrSpaceManager) (reqs : list (list VarnodeData.t * uint4))
  : list JoinRecord * AddrSpaceManager :=
  match reqs with
  | [] => ([], m)
  | (pcs, logicalsize) :: reqs' =>
      let (rec, m1) := findAddJoin m pcs logicalsize in
      let (recs, m2) := findAddJoin_all m1 reqs' in
      (rec :: recs, m2)
  end.

(** What the comparison reads of a piece, and of a piece sequence. *)
Definition piece_key (p : VarnodeData.t) : Z * N * N :=
  (getIndex (VarnodeData.space p), VarnodeData.offset p, VarnodeData.size p).

Definition pieces_key (ps : list VarnodeData.t) : list (Z * N * N) :=
  piece_key <$> ps.

(** The invariant that ties the two containers and the cursor together: the
    set and the list hold the same records, the set in increasing order; every
    unified location ends at or before the cursor, and no two of them
    overlap. *)
Record join_consistent (m : AddrSpaceManager) : Prop := mk_join_consistent {
  jc_same : splitset m ≡ₚ splitlist m;
  jc_sorted : StronglySorted (fun a b => JoinRecordCompare a b = true) (splitset m);
  jc_below : forall r, r ∈ splitlist m ->
    (VarnodeData.offset (unified r) + VarnodeData.size (unified r) <= joinallocate m)%N;
  jc_apart : forall r r' off, r ∈ splitlist m -> r' ∈ splitlist m ->
    in_unified r off = true -> in_unified r' off = true -> r = r'
}.

End Join.

(** Modelled from the spec: the body of [AddrSpaceManager::findJoin]
    (translate.cc is missing), the "reverse lookup from a join-space offset
    back to its JoinRecord", through the list in allocation order, for "every
    offset in the allocated range of that record's unified location"; it
    "fails (returns null / not-found) for offsets never allocated". *)
Definition findJoin (m : AddrSpaceManager) (off : uintb) : option JoinRecord :=
  find (fun r => in_unified r off) (splitlist m).

(** Modelled from the spec: the constructor [AddrSpaceManager(void)]
    (translate.cc is missing), "Construct an empty address space manager":
    no space, no resolver and no join record; join records are "created
    lazily on first request". *)
Definition AddrSpaceManager_new : AddrSpaceManager :=
  {| baselist := [];
     resolvelist := [];
     name2Space := ∅;
     shortcut2Space := ∅;
     constantspace := nullptr;
     defaultspace := nullptr;
     iopspace := nullptr;
     fspecspace := nullptr;
     joinspace := nullptr;
     stackspace := nullptr;
     uniqspace := nullptr;
     joinallocate := 0%N;
     splitset := [];
     splitlist := [] |}.

(** ** Sample values

    A manager with three spaces: the constant space at address 4096, a
    register space at 8192 and the join space at 12288; two 4-byte registers
    [R0] (offset 0) and [R1] (offset 4) of the register space. *)
Definition sample_manager : AddrSpaceManager :=
  {| baselist := [4096; 8192; 12288]%N;
     resolvelist := [];
     name2Space := ∅;
     shortcut2Space := ∅;
     constantspace := 4096%N;
     defaultspace := 8192%N;
     iopspace := nullptr;
     fspecspace := nullptr;
     joinspace := 12288%N;
     stackspace := nullptr;
     uniqspace := nullptr;
     joinallocate := 0%N;
     splitset := [];
     splitlist := [] |}.

Definition R0 : VarnodeData.t := VarnodeData.mk 8192 0 4.
Definition R1 : VarnodeData.t := VarnodeData.mk 8192 4 4.

(** The index of a sample space is read off its address. *)
Definition sample_index (spc : N) : Z := Z.of_N spc.

(** A translator over the sample manager, with 4 as the base of the unique
    space. *)
Definition sample_translate : Translate :=
  {| manager := sample_manager;
     target_isbigendian := false;
     unique_base := 4%N;
     alignment := 1%Z;
     floatformats := [] |}.

(** A record with one 4-byte piece and a 4-byte unified location. *)
Definition one_piece_same_size : JoinRecord :=
  {| pieces := [R0];
     unified := VarnodeData.mk 12288 0 4 |}.

(** The state after [findAddJoin([R1, R0], 8)] on the sample manager, and
    after the three further requests [R0] alone with logical size 8,
    [R0, R1] and again [R1, R0]. *)
Definition sample_requests : list (list VarnodeData.t * N) :=
  [([R0], 8%N); ([R0; R1], 0%N); ([R1; R0], 8%N)].

Definition sample_first : JoinRecord * AddrSpaceManager :=
  findAddJoin sample_index sample_manager [R1; R0] 8.

Definition sample_run : list JoinRecord * AddrSpaceManager :=
  findAddJoin_all sample_index (snd sample_first) sample_requests.

(** ** Runs of calls *)

(** The loop that the comment of [getSpace] describes ("in conjunction with
    the numSpaces method, this method can be used to iterate over all
    spaces"): [getSpace(i)] for [i] from 0 up to, and without, [numSpaces()]. *)
Definition iterateSpaces (m : AddrSpaceManager) : list (outcome AddrSpacePtr) :=
  getSpace m <$> seqZ 0 (numSpaces m).

(** A call of one of the member functions of [Translate] that the header
    defines and that act on the translator. *)
Inductive TranslateCall : Type :=
| CallSetBigEndian (val : bool)
| CallSetUniqueBase (val : uintm)
| CallRegisterContext (name : string) (sbit ebit : int4)
| CallSetContextDefault (name : string) (val : uintm)
| CallAllowContextSet (val : bool).

Definition call (t : Translate) (c : TranslateCall) : Translate :=
  match c with
  | CallSetBigEndian val => setBigEndian t val
  | CallSetUniqueBase val => setUniqueBase t val
  | CallRegisterContext name sbit ebit => registerContext t name sbit ebit
  | CallSetContextDefault name val => setContextDefault t name val
  | CallAllowContextSet val => allowContextSet t val
  end.

(** A run of calls, in order. *)
Definition calls (t : Translate) (cs : list TranslateCall) : Translate :=
  foldl call t cs.

(** The arguments of the [setBigEndian] calls of a run, and of its
    [setUniqueBase] calls, in order. *)
Definition bigEndian_args (cs : list TranslateCall) : list bool :=
  omap (fun c => match c with CallSetBigEndian val => Some val | _ => None end) cs.

Definition uniqueBase_args (cs : list TranslateCall) : list uintm :=
  omap (fun c => match c with CallSetUniqueBase val => Some val | _ => None end) cs.

(** ** Records of the join space and their locations *)


(** A piece of the register space without a byte, and a run on the sample
    manager that asks for no piece at all, for that piece alone, and for
    [R0] alone. *)
Definition empty_piece : VarnodeData.t := VarnodeData.mk 8192 0 0.

Definition empty_requests : list (list VarnodeData.t * N) :=
  [([], 0%N); ([empty_piece], 0%N); ([R0], 4%N)].


Definition empty_run : list JoinRecord * AddrSpaceManager :=
  findAddJoin_all sample_index sample_manager empty_requests.

(** The record that [findAddJoin([R1, R0], 16)] makes on the sample manager. *)
Definition wide_pair : JoinRecord :=
  fst (findAddJoin sample_index sample_manager [R1; R0] 16).

(** * Properties *)

(** ** Machine integers and vectors *)

Lemma to_int4_small (z : Z) : (- 2 ^ 31 <= z < 2 ^ 31)%Z -> to_int4 z = z.
Proof.
  intros Hz. unfold to_int4.
  rewrite Z.mod_small by lia. lia.
Qed.

(** A converted size never exceeds the size itself. *)
Lemma to_int4_le (z : Z) : (0 <= z)%Z -> (to_int4 z <= z)%Z.
Proof.
  intros Hz. unfold to_int4.
  assert (Hm : ((z + 2 ^ 31) mod 2 ^ 32 <= z + 2 ^ 31)%Z)
    by (apply Z.mod_le; lia).
  lia.
Qed.

Lemma to_uintb_small (n : N) : (n < 2 ^ 64)%N -> to_uintb n = n.
Proof. intros Hn. unfold to_uintb. by apply N.mod_small. Qed.

Lemma to_uintb_range (n : N) : (to_uintb n < 2 ^ 64)%N.
Proof. unfold to_uintb. apply N.mod_lt. lia. Qed.

Lemma vector_at_in_range {A : Type} (v : list A) (i : Z) :
  (0 <= i < Z.of_nat (length v))%Z ->
  exists a, v !! Z.to_nat i = Some a /\ vector_at v i = Returns a.
Proof.
  intros [Hlo Hhi]. unfold vector_at.
  destruct (decide (0 <= i)%Z) as [_|]; [|lia].
  destruct (lookup_lt_is_Some_2 v (Z.to_nat i)) as [a Ha]; [lia|].
  exists a. by rewrite Ha.
Qed.

Lemma vector_at_out_of_range {A : Type} (v : list A) (i : Z) :
  (i < 0 \/ Z.of_nat (length v) <= i)%Z -> vector_at v i = Undefined.
Proof.
  intros Hi. unfold vector_at.
  destruct (decide (0 <= i)%Z) as [Hlo|]; [|done].
  rewrite lookup_ge_None_2; [done|lia].
Qed.

(** ** UnimplError *)

(** C8: for every description [s] and every length [l], the error built by
    [UnimplError(s, l)] carries [instruction_length] equal to [l] (and the
    description [s]), so whoever catches it knows how many bytes to skip. *)
Theorem UnimplError_carries_length (s : string) (l : Z) :
  instruction_length (UnimplError_new s l) = l
  /\ explain (UnimplError_super (UnimplError_new s l)) = s.
Proof. split; reflexivity. Qed.

(** ** Packed pcode tags *)

Lemma packed_tags_complete (t : PackedTag) : t ∈ packed_tags.
Proof. destruct t; unfold packed_tags; set_solver. Qed.

(** C2: the reserved tag bytes of the packed pcode encoding are unimpl = 32
    (0x20), inst = 33 (0x21), op = 34 (0x22), void = 35 (0x23), spaceid = 36
    (0x24), addrsz = 37 (0x25) and end = 96 (0x60); these seven, in the order
    of their declaration, are all the tags, and no two of them share a
    value. *)
Theorem packed_tag_values :
  tag_value unimpl_tag = 32%N
  /\ tag_value inst_tag = 33%N
  /\ tag_value op_tag = 34%N
  /\ tag_value void_tag = 35%N
  /\ tag_value spaceid_tag = 36%N
  /\ tag_value addrsz_tag = 37%N
  /\ tag_value end_tag = 96%N
  /\ tag_value <$> packed_tags = [32; 33; 34; 35; 36; 37; 96]%N
  /\ (forall t, t ∈ packed_tags)
  /\ (forall t t', tag_value t = tag_value t' -> t = t').
Proof.
  repeat split; try reflexivity.
  - apply packed_tags_complete.
  - intros t t' Heq. destruct t, t'; simpl in Heq; (reflexivity || discriminate).
Qed.

(** ** JoinRecord::isFloatExtension *)

Lemma isFloatExtension_spec (r : JoinRecord) :
  isFloatExtension r = true <-> length (pieces r) = 1.
Proof. unfold isFloatExtension. apply bool_decide_eq_true. Qed.

Lemma float_extension_record_spec (r : JoinRecord) :
  float_extension_record r = true <->
  length (pieces r) = 1 /\ (sum_sizes (pieces r) < VarnodeData.size (unified r))%N.
Proof.
  unfold float_extension_record.
  destruct (pieces r) as [|p [|q ps]]; simpl.
  - split; [done|]. by intros [? _].
  - rewrite N.ltb_lt, N.add_0_r. tauto.
  - split; [done|]. by intros [? _].
Qed.

(** ** AddrSpaceManager::getSpace and numSpaces *)

Lemma numSpaces_small (m : AddrSpaceManager) :
  (Z.of_nat (length (baselist m)) < 2 ^ 31)%Z ->
  numSpaces m = Z.of_nat (length (baselist m)).
Proof. intros Hlen. unfold numSpaces. apply to_int4_small. lia. Qed.

Example getSpace_sample :
  getSpace sample_manager 0 = Returns 4096%N
  /\ getSpace sample_manager 2 = Returns 12288%N.
Proof. split; reflexivity. Qed.

(** C5, as stated, fails: with three spaces registered, the indices 3 and -1
    name no space, and [getSpace] yields no sentinel there: the vector is
    read outside its bounds and no value is defined. *)
Lemma getSpace_unregistered_undefined :
  numSpaces sample_manager = 3%Z
  /\ getSpace sample_manager 3 = Undefined
  /\ getSpace sample_manager (-1) = Undefined
  /\ getSpace sample_manager 3 <> Returns nullptr
  /\ getSpace sample_manager (-1) <> Returns nullptr.
Proof. repeat split; (reflexivity || discriminate). Qed.

(** C5, amended: for every registered index ([0 <= i < numSpaces()])
    [getSpace(i)] returns the space at position [i] of the ordered space
    list.  For an index outside the list the access is unchecked: no value,
    and no sentinel, is defined, and it is for the caller to stay below
    [numSpaces()], which is the length of the list whenever that fits
    [int4]. *)
Theorem getSpace_registered (m : AddrSpaceManager) (i : Z) :
  ((0 <= i < numSpaces m)%Z ->
     exists spc, baselist m !! Z.to_nat i = Some spc /\ getSpace m i = Returns spc)
  /\ ((i < 0 \/ Z.of_nat (length (baselist m)) <= i)%Z -> getSpace m i = Undefined)
  /\ ((Z.of_nat (length (baselist m)) < 2 ^ 31)%Z ->
       numSpaces m = Z.of_nat (length (baselist m))).
Proof.
  split; [|split].
  - intros [Hlo Hhi]. apply vector_at_in_range.
    pose proof (to_int4_le (Z.of_nat (length (baselist m)))) as Hle.
    unfold numSpaces in Hhi. lia.
  - apply vector_at_out_of_range.
  - apply numSpaces_small.
Qed.

(** ** Constant addresses *)

(** C7: for every value [val], [getConstant(val)] is the address in the
    constant space of the manager at offset [val]; for every space [spc],
    [createConstFromSpace(spc)] is an address in the constant space whose
    offset is the pointer [spc] read as a [uintb], so two spaces (at
    addresses that fit a [uintb]) with the same encoding are the same. *)
Theorem constant_space_addresses (m : AddrSpaceManager) (val : N) (spc : N) :
  Address.base (getConstant m val) = getConstantSpace m
  /\ Address.offset (getConstant m val) = val
  /\ Address.base (createConstFromSpace m spc) = getConstantSpace m
  /\ Address.offset (createConstFromSpace m spc) = to_uintb spc
  /\ ((spc < 2 ^ 64)%N -> Address.offset (createConstFromSpace m spc) = spc)
  /\ (forall spc', (spc < 2 ^ 64)%N -> (spc' < 2 ^ 64)%N ->
        createConstFromSpace m spc = createConstFromSpace m spc' -> spc = spc').
Proof.
  repeat split; try reflexivity.
  - intros Hspc. simpl. by apply to_uintb_small.
  - intros spc' Hspc Hspc' Heq.
    unfold createConstFromSpace in Heq. injection Heq as Heq.
    by rewrite !to_uintb_small in Heq.
Qed.

(** ** Translate: context hooks and the base of the unique space *)

(** C9: in every state and for all arguments, the base-class
    [registerContext(name, sbit, ebit)] and [setContextDefault(name, val)]
    do nothing: the state after the call, the address-space manager
    included, is the state before it. *)
Theorem context_hooks_do_nothing
  (t : Translate) (name : string) (sbit ebit : Z) (val : N) :
  registerContext t name sbit ebit = t
  /\ setContextDefault t name val = t
  /\ manager (registerContext t name sbit ebit) = manager t
  /\ manager (setContextDefault t name val) = manager t.
Proof. repeat split; reflexivity. Qed.

Lemma setUniqueBase_value (t : Translate) (val : N) :
  getUniqueBase (setUniqueBase t val) = N.max (getUniqueBase t) val.
Proof.
  unfold setUniqueBase, getUniqueBase.
  destruct (N.ltb_spec (unique_base t) val); simpl; lia.
Qed.

Lemma setUniqueBase_smaller (t : Translate) (val : N) :
  (val <= getUniqueBase t)%N -> setUniqueBase t val = t.
Proof.
  unfold setUniqueBase, getUniqueBase. intros Hle.
  destruct (N.ltb_spec (unique_base t) val); [lia|done].
Qed.

Lemma setUniqueBase_frame (t : Translate) (val : N) :
  manager (setUniqueBase t val) = manager t
  /\ isBigEndian (setUniqueBase t val) = isBigEndian t
  /\ getAlignment (setUniqueBase t val) = getAlignment t
  /\ floatformats (setUniqueBase t val) = floatformats t.
Proof. unfold setUniqueBase. by destruct (unique_base t <? val)%N. Qed.

Lemma setUniqueBase_all_value (vals : list N) (t : Translate) :
  getUniqueBase (setUniqueBase_all t vals) = foldl N.max (getUniqueBase t) vals.
Proof.
  unfold setUniqueBase_all. revert t.
  induction vals as [|v vals IH]; intros t; simpl; [done|].
  by rewrite IH, setUniqueBase_value.
Qed.

Lemma foldl_max_bounds (vals : list N) (b : N) :
  (b <= foldl N.max b vals)%N
  /\ (forall v, v ∈ vals -> (v <= foldl N.max b vals)%N)
  /\ (foldl N.max b vals = b \/ foldl N.max b vals ∈ vals).
Proof.
  revert b. induction vals as [|v vals IH]; intros b; simpl.
  - split; [lia|]. split; [|by left]. intros v Hv. by apply elem_of_nil in Hv.
  - destruct (IH (N.max b v)) as (Hge & Hall & Hin).
    split; [lia|]. split.
    + intros w Hw. apply elem_of_cons in Hw as [->|Hw]; [lia|by apply Hall].
    + destruct Hin as [Heq|Hin].
      * rewrite Heq. destruct (N.max_spec b v) as [[_ ->]|[_ ->]];
          [right; left|by left].
      * right. by right.
Qed.

Example setUniqueBase_sample :
  getUniqueBase (setUniqueBase sample_translate 2) = 4%N
  /\ getUniqueBase (setUniqueBase sample_translate 6) = 6%N
  /\ getUniqueBase (setUniqueBase_all sample_translate [5; 3; 9; 7]%N) = 9%N
  /\ getUniqueBase (setUniqueBase_all sample_translate [1; 3; 2]%N) = 4%N.
Proof. repeat split; reflexivity. Qed.

(** C10: [setUniqueBase(val)] sets [unique_base] to the maximum of its
    current value and [val] and changes nothing else; the base never
    decreases; a call with a value that is not larger leaves the state as it
    is; and after any run of calls [getUniqueBase()] is the largest value
    ever passed, or the initial value if that is larger. *)
Theorem setUniqueBase_is_max (t : Translate) (val : N) (vals : list N) :
  getUniqueBase (setUniqueBase t val) = N.max (getUniqueBase t) val
  /\ (getUniqueBase t <= getUniqueBase (setUniqueBase t val))%N
  /\ ((val <= getUniqueBase t)%N -> setUniqueBase t val = t)
  /\ manager (setUniqueBase t val) = manager t
  /\ (getUniqueBase t <= getUniqueBase (setUniqueBase_all t vals))%N
  /\ (forall v, v ∈ vals -> (v <= getUniqueBase (setUniqueBase_all t vals))%N)
  /\ (getUniqueBase (setUniqueBase_all t vals) = getUniqueBase t
      \/ getUniqueBase (setUniqueBase_all t vals) ∈ vals).
Proof.
  split; [apply setUniqueBase_value|].
  split; [rewrite setUniqueBase_value; lia|].
  split; [apply setUniqueBase_smaller|].
  split; [apply setUniqueBase_frame|].
  rewrite setUniqueBase_all_value.
  apply foldl_max_bounds.
Qed.

(** ** The de-duplication set *)

Section StdSet.

Context {A : Type} (lt : A -> A -> bool).

Lemma set_find_Some (x e : A) (s : list A) :
  set_find lt x s = Some e -> e ∈ s /\ lt e x = false /\ lt x e = false.
Proof.
  unfold set_find. intros Hfind.
  apply find_some in Hfind as [Hin Heq].
  apply andb_true_iff in Heq as [H1 H2].
  apply negb_true_iff in H1, H2.
  by rewrite list_elem_of_In.
Qed.

Lemma set_find_None (x : A) (s : list A) :
  set_find lt x s = None -> forall e, e ∈ s -> lt e x = true \/ lt x e = true.
Proof.
  unfold set_find. intros Hfind e Hin.
  apply list_elem_of_In in Hin.
  pose proof (find_none _ _ Hfind e Hin) as Heq. simpl in Heq.
  destruct (lt e x); [by left|]. destruct (lt x e); [by right|done].
Qed.

(** With no equivalent element in the set, the key is inserted. *)
Lemma set_insert_perm (x : A) (s : list A) :
  (forall e, e ∈ s -> lt e x = true \/ lt x e = true) ->
  set_insert lt x s ≡ₚ x :: s.
Proof.
  induction s as [|e s IH]; intros Hne; simpl; [done|].
  destruct (lt x e) eqn:Hxe; [done|].
  destruct (Hne e) as [Hex|Hex]; [by left| |congruence].
  rewrite Hex, IH.
  - apply Permutation_swap.
  - intros e' He'. apply Hne. by right.
Qed.

Lemma set_insert_elem_of (x e : A) (s : list A) :
  e ∈ set_insert lt x s -> e = x \/ e ∈ s.
Proof.
  induction s as [|e' s IH]; simpl.
  - rewrite list_elem_of_singleton. by left.
  - destruct (lt x e'); [by rewrite elem_of_cons|].
    destruct (lt e' x); [|by right].
    rewrite !elem_of_cons. intros [->|He]; [by right; left|].
    destruct (IH He); [by left|by right; right].
Qed.

Hypothesis lt_trans : forall a b c, lt a b = true -> lt b c = true -> lt a c = true.

(** Insertion keeps the set in increasing order. *)
Lemma set_insert_sorted (x : A) (s : list A) :
  StronglySorted (fun a b => lt a b = true) s ->
  StronglySorted (fun a b => lt a b = true) (set_insert lt x s).
Proof using lt_trans.
  induction s as [|e s IH]; intros Hs; simpl.
  - by repeat constructor.
  - apply StronglySorted_inv in Hs as [Hs He].
    destruct (lt x e) eqn:Hxe.
    + constructor; [by constructor|].
      constructor; [done|].
      eapply Forall_impl; [exact He|]. intros y Hy. by eapply lt_trans.
    + destruct (lt e x) eqn:Hex; [|by constructor].
      constructor; [by apply IH|].
      apply Forall_forall. intros y Hy.
      apply set_insert_elem_of in Hy as [->|Hy]; [done|].
      by eapply (proj1 (Forall_forall _ _) He).
Qed.

(** Two elements of a set are the same or ordered, one way or the other. *)
Lemma sorted_elements_ordered (s : list A) (a b : A) :
  StronglySorted (fun a b => lt a b = true) s ->
  a ∈ s -> b ∈ s -> a = b \/ lt a b = true \/ lt b a = true.
Proof.
  induction s as [|e s IH]; intros Hs Ha Hb; [by apply elem_of_nil in Ha|].
  apply StronglySorted_inv in Hs as [Hs He].
  rewrite Forall_forall in He.
  apply elem_of_cons in Ha as [->|Ha], Hb as [->|Hb].
  - by left.
  - right. left. by apply He.
  - right. right. by apply He.
  - by apply IH.
Qed.

End StdSet.

(** ** The order on piece sequences *)

Section JoinFacts.

Variable getIndex : N -> Z.

Lemma VarnodeData_lt_irrefl (a : VarnodeData.t) : VarnodeData_lt getIndex a a = false.
Proof.
  unfold VarnodeData_lt.
  rewrite !decide_True by done. apply N.ltb_irrefl.
Qed.

Lemma VarnodeData_lt_trans (a b c : VarnodeData.t) :
  VarnodeData_lt getIndex a b = true -> VarnodeData_lt getIndex b c = true ->
  VarnodeData_lt getIndex a c = true.
Proof.
  unfold VarnodeData_lt.
  repeat case_decide; try congruence;
    rewrite ?N.ltb_lt, ?Z.ltb_lt; lia.
Qed.

(** Neither of two pieces is less than the other exactly when the comparison
    reads the same of both. *)
Lemma VarnodeData_lt_equiv (a b : VarnodeData.t) :
  VarnodeData_lt getIndex a b = false /\ VarnodeData_lt getIndex b a = false
  <-> piece_key getIndex a = piece_key getIndex b.
Proof.
  unfold VarnodeData_lt, piece_key. split.
  - intros [Hab Hba]. repeat case_decide; try congruence;
      rewrite ?N.ltb_ge, ?Z.ltb_ge in Hab, Hba; try lia.
    f_equal; [f_equal; done|lia].
  - intros Hkey. injection Hkey as Hi Ho Hs.
    rewrite !decide_True by done.
    rewrite Hs. split; apply N.ltb_irrefl.
Qed.

(** The comparison of two pieces is a function of what it reads of them. *)
Lemma VarnodeData_lt_key (a a' b b' : VarnodeData.t) :
  piece_key getIndex a = piece_key getIndex a' ->
  piece_key getIndex b = piece_key getIndex b' ->
  VarnodeData_lt getIndex a b = VarnodeData_lt getIndex a' b'.
Proof.
  unfold piece_key, VarnodeData_lt.
  intros Ha Hb. injection Ha as -> -> ->. injection Hb as -> -> ->. done.
Qed.

Lemma pieces_lt_irrefl (ps : list VarnodeData.t) : pieces_lt getIndex ps ps = false.
Proof.
  induction ps as [|p ps IH]; simpl; [done|].
  by rewrite VarnodeData_lt_irrefl.
Qed.

Lemma pieces_lt_equiv (ps qs : list VarnodeData.t) :
  pieces_lt getIndex ps qs = false /\ pieces_lt getIndex qs ps = false
  <-> pieces_key getIndex ps = pieces_key getIndex qs.
Proof.
  unfold pieces_key. revert qs.
  induction ps as [|p ps IH]; intros [|q qs]; simpl; try (split; [by intros [? ?]|done]).
  assert (Hcons : piece_key getIndex p :: (piece_key getIndex <$> ps)
                  = piece_key getIndex q :: (piece_key getIndex <$> qs)
                  <-> piece_key getIndex p = piece_key getIndex q
                      /\ (piece_key getIndex <$> ps) = (piece_key getIndex <$> qs)).
  { split; [apply (inj2 cons)|by intros [-> ->]]. }
  rewrite Hcons, <- IH, <- VarnodeData_lt_equiv.
  destruct (VarnodeData_lt getIndex p q), (VarnodeData_lt getIndex q p);
    intuition congruence.
Qed.

Lemma pieces_lt_trans (ps qs rs : list VarnodeData.t) :
  pieces_lt getIndex ps qs = true -> pieces_lt getIndex qs rs = true ->
  pieces_lt getIndex ps rs = true.
Proof.
  revert qs rs.
  induction ps as [|p ps IH]; intros [|q qs] [|r rs]; simpl; try done.
  destruct (VarnodeData_lt getIndex p q) eqn:Hpq.
  - (* p < q *)
    intros _.
    destruct (VarnodeData_lt getIndex q r) eqn:Hqr.
    + intros _. by rewrite (VarnodeData_lt_trans p q r).
    + destruct (VarnodeData_lt getIndex r q) eqn:Hrq; [done|].
      intros _.
      assert (Hk : piece_key getIndex q = piece_key getIndex r)
        by by apply VarnodeData_lt_equiv.
      by rewrite <- (VarnodeData_lt_key p p q r eq_refl Hk), Hpq.
  - destruct (VarnodeData_lt getIndex q p) eqn:Hqp; [done|].
    assert (Hk : piece_key getIndex p = piece_key getIndex q)
      by by apply VarnodeData_lt_equiv.
    rewrite (VarnodeData_lt_key p q r r Hk eq_refl).
    rewrite (VarnodeData_lt_key r r p q eq_refl Hk).
    destruct (VarnodeData_lt getIndex q r); [done|].
    destruct (VarnodeData_lt getIndex r q); [done|].
    apply IH.
Qed.

Lemma JoinRecordCompare_irrefl (a : JoinRecord) : JoinRecordCompare getIndex a a = false.
Proof. apply pieces_lt_irrefl. Qed.

Lemma JoinRecordCompare_trans (a b c : JoinRecord) :
  JoinRecordCompare getIndex a b = true -> JoinRecordCompare getIndex b c = true ->
  JoinRecordCompare getIndex a c = true.
Proof. apply pieces_lt_trans. Qed.

(** Two records are equivalent for the comparator exactly when the
    comparison reads the same piece sequence of both. *)
Lemma JoinRecordCompare_equiv (a b : JoinRecord) :
  JoinRecordCompare getIndex a b = false /\ JoinRecordCompare getIndex b a = false
  <-> pieces_key getIndex (pieces a) = pieces_key getIndex (pieces b).
Proof. apply pieces_lt_equiv. Qed.


(** ** One call of findAddJoin *)

(** A consistent manager holds one record at most for what the comparison
    reads of a piece sequence. *)
Lemma join_unique (m : AddrSpaceManager) (r r' : JoinRecord) :
  join_consistent getIndex m ->
  r ∈ splitlist m -> r' ∈ splitlist m ->
  pieces_key getIndex (pieces r) = pieces_key getIndex (pieces r') -> r = r'.
Proof.
  intros Hm Hr Hr' Hkey.
  rewrite <- (jc_same _ m Hm) in Hr, Hr'.
  apply JoinRecordCompare_equiv in Hkey as [Hlt Hgt].
  destruct (sorted_elements_ordered (JoinRecordCompare getIndex) (splitset m) r r'
              (jc_sorted _ m Hm) Hr Hr') as [Heq|[Hlt'|Hgt']]; [done|congruence..].
Qed.

(** A call either hits a record of the manager, which it returns with the
    manager as it was, or misses, and then appends a record at the cursor. *)
Lemma findAddJoin_cases (m : AddrSpaceManager) (pcs : list VarnodeData.t) (logicalsize : N) :
  splitset m ≡ₚ splitlist m ->
  (exists rec,
      rec ∈ splitlist m
      /\ pieces_key getIndex (pieces rec) = pieces_key getIndex pcs
      /\ findAddJoin getIndex m pcs logicalsize = (rec, m))
  \/ ((forall e, e ∈ splitlist m ->
         pieces_key getIndex (pieces e) <> pieces_key getIndex pcs)
      /\ exists rec m',
          findAddJoin getIndex m pcs logicalsize = (rec, m')
          /\ pieces rec = pcs
          /\ unified rec =
               VarnodeData.mk (joinspace m) (joinallocate m) (N.max (sum_sizes pcs) logicalsize)
          /\ splitlist m' = splitlist m ++ [rec]
          /\ splitset m' = set_insert (JoinRecordCompare getIndex) rec (splitset m)
          /\ splitset m' ≡ₚ rec :: splitset m
          /\ joinallocate m' = (joinallocate m + N.max (sum_sizes pcs) logicalsize)%N).
Proof.
  intros Hsame. unfold findAddJoin.
  set (testnode := {| pieces := pcs; unified := VarnodeData.mk nullptr 0 0 |}).
  destruct (set_find (JoinRecordCompare getIndex) testnode (splitset m)) as [rec|] eqn:Hfind.
  - left. exists rec.
    apply set_find_Some in Hfind as (Hin & H1 & H2).
    split; [by rewrite <- Hsame|]. split; [|done].
    by apply (JoinRecordCompare_equiv rec testnode).
  - right.
    pose proof (set_find_None _ _ _ Hfind) as Hmiss.
    split.
    + intros e He Heq. rewrite <- Hsame in He.
      pose proof (proj2 (JoinRecordCompare_equiv e testnode) Heq) as [H1 H2].
      destruct (Hmiss e He); congruence.
    + eexists _, _. split; [reflexivity|]. simpl.
      do 4 (split; [reflexivity|]). split; [|reflexivity].
      apply set_insert_perm.
      intros e He. destruct (Hmiss e He) as [Hlt|Hgt]; [left; exact Hlt|right; exact Hgt].
Qed.

Lemma in_unified_range (r : JoinRecord) (off : N) :
  in_unified r off = true <->
  (VarnodeData.offset (unified r) <= off
   < VarnodeData.offset (unified r) + VarnodeData.size (unified r))%N.
Proof.
  unfold in_unified. rewrite andb_true_iff, N.leb_le, N.ltb_lt. tauto.
Qed.

(** A call keeps the invariant, returns a record of the new state in which
    the comparison reads the submitted pieces, keeps every record in place
    and never moves the cursor back. *)
Lemma findAddJoin_consistent
  (m m' : AddrSpaceManager) (pcs : list VarnodeData.t) (logicalsize : N) (rec : JoinRecord) :
  join_consistent getIndex m ->
  findAddJoin getIndex m pcs logicalsize = (rec, m') ->
  join_consistent getIndex m'
  /\ rec ∈ splitlist m'
  /\ pieces_key getIndex (pieces rec) = pieces_key getIndex pcs
  /\ (joinallocate m <= joinallocate m')%N
  /\ (splitlist m' = splitlist m \/ splitlist m' = splitlist m ++ [rec]).
Proof.
  intros Hm Hcall. pose proof Hm as [Hsame Hsorted Hbelow Hapart].
  destruct (findAddJoin_cases m pcs logicalsize Hsame)
    as [(rec0 & Hin & Hpcs & Heq)
       |(Hfresh & rec0 & m0 & Heq & Hpcs & Huni & Hlist & Hset & Hperm & Hcur)];
    rewrite Heq in Hcall; injection Hcall as <- <-.
  - repeat split; try done. by left.
  - assert (Hmem : forall r, r ∈ splitlist m0 <-> r ∈ splitlist m \/ r = rec0).
    { intros r. rewrite Hlist, elem_of_app, list_elem_of_singleton. tauto. }
    assert (Hnew : forall r off, r ∈ splitlist m ->
               in_unified r off = true -> in_unified rec0 off = true -> False).
    { intros r off Hr Hr_off Hrec_off.
      apply in_unified_range in Hr_off, Hrec_off.
      rewrite Huni in Hrec_off. simpl in Hrec_off.
      pose proof (Hbelow r Hr). lia. }
    split; [|split; [|split; [|split]]].
    + split.
      * rewrite Hperm, Hlist, Hsame. apply Permutation_cons_append.
      * rewrite Hset. apply set_insert_sorted; [|done].
        apply JoinRecordCompare_trans.
      * intros r Hr. rewrite Hcur.
        apply Hmem in Hr as [Hr| ->].
        -- pose proof (Hbelow r Hr). lia.
        -- rewrite Huni. simpl. lia.
      * intros r r' off Hr Hr' Hoff Hoff'.
        apply Hmem in Hr as [Hr| ->], Hr' as [Hr'| ->]; try done.
        -- by apply (Hapart r r' off).
        -- exfalso. by apply (Hnew r off).
        -- exfalso. by apply (Hnew r' off).
    + apply Hmem. by right.
    + by rewrite Hpcs.
    + lia.
    + by right.
Qed.

Lemma join_consistent_empty (m : AddrSpaceManager) :
  splitset m = [] -> splitlist m = [] -> join_consistent getIndex m.
Proof.
  intros Hset Hlist. split; rewrite ?Hset, ?Hlist.
  - done.
  - constructor.
  - intros r Hr. by apply elem_of_nil in Hr.
  - intros r r' off Hr. by apply elem_of_nil in Hr.
Qed.

(** ** Runs of findAddJoin *)

Lemma findAddJoin_all_length
  (reqs : list (list VarnodeData.t * N)) (m m' : AddrSpaceManager) (recs : list JoinRecord) :
  findAddJoin_all getIndex m reqs = (recs, m') -> length recs = length reqs.
Proof.
  revert m recs. induction reqs as [|[pcs0 l0] reqs IH]; intros m recs Hrun; simpl in Hrun.
  - by injection Hrun as <- <-.
  - destruct (findAddJoin getIndex m pcs0 l0) as [rec0 m1].
    destruct (findAddJoin_all getIndex m1 reqs) as [recs1 m2] eqn:Hrest.
    injection Hrun as <- <-. simpl. f_equal. by eapply IH.
Qed.

Lemma findAddJoin_all_consistent
  (reqs : list (list VarnodeData.t * N)) (m m' : AddrSpaceManager) (recs : list JoinRecord) :
  join_consistent getIndex m ->
  findAddJoin_all getIndex m reqs = (recs, m') ->
  join_consistent getIndex m'
  /\ (joinallocate m <= joinallocate m')%N
  /\ (forall r, r ∈ splitlist m -> r ∈ splitlist m')
  /\ (forall r, r ∈ splitlist m' -> r ∈ splitlist m \/ r ∈ recs)
  /\ (forall i pcs logicalsize, reqs !! i = Some (pcs, logicalsize) ->
        exists rec, recs !! i = Some rec
                    /\ pieces_key getIndex (pieces rec) = pieces_key getIndex pcs
                    /\ rec ∈ splitlist m').
Proof.
  revert m recs. induction reqs as [|[pcs0 l0] reqs IH]; intros m recs Hm Hrun; simpl in Hrun.
  - injection Hrun as <- <-.
    split; [done|]. split; [lia|]. split; [done|]. split; [by left|].
    intros i pcs l Hreq. by rewrite lookup_nil in Hreq.
  - destruct (findAddJoin getIndex m pcs0 l0) as [rec0 m1] eqn:Hcall.
    destruct (findAddJoin_all getIndex m1 reqs) as [recs1 m2] eqn:Hrest.
    injection Hrun as <- <-.
    destruct (findAddJoin_consistent _ _ _ _ _ Hm Hcall)
      as (Hm1 & Hin0 & Hpcs0 & Hcur0 & Hlist0).
    destruct (IH _ _ Hm1 Hrest) as (Hm2 & Hcur & Hkeep & Hfrom & Hret).
    split; [done|]. split; [lia|]. split; [|split].
    + intros r Hr. apply Hkeep.
      destruct Hlist0 as [-> | ->]; [done|]. apply elem_of_app. by left.
    + intros r Hr. destruct (Hfrom r Hr) as [Hr1|Hr1].
      * destruct Hlist0 as [Heq|Heq]; rewrite Heq in Hr1.
        -- by left.
        -- apply elem_of_app in Hr1 as [Hr1|Hr1]; [by left|].
           apply list_elem_of_singleton in Hr1 as ->. right. by left.
      * right. by right.
    + intros [|i] pcs l Hreq; simpl in Hreq.
      * injection Hreq as <- <-. exists rec0. split; [done|]. split; [done|].
        by apply Hkeep.
      * by apply (Hret i pcs l).
Qed.

(** Every state reached from a consistent one is consistent. *)
Lemma join_consistent_reachable
  (m : AddrSpaceManager) (reqs : list (list VarnodeData.t * N)) :
  join_consistent getIndex m ->
  join_consistent getIndex (snd (findAddJoin_all getIndex m reqs)).
Proof.
  intros Hm.
  destruct (findAddJoin_all getIndex m reqs) as [recs m'] eqn:Hrun.
  by destruct (findAddJoin_all_consistent _ _ _ _ Hm Hrun) as [Hm' _].
Qed.

(** A record that a call creates has the submitted pieces, starts at the
    cursor and has the larger of the sum of the piece sizes and the logical
    size as its unified size. *)
Lemma findAddJoin_new_record
  (m m' : AddrSpaceManager) (pcs : list VarnodeData.t) (logicalsize : N) (rec : JoinRecord) :
  join_consistent getIndex m ->
  findAddJoin getIndex m pcs logicalsize = (rec, m') ->
  rec ∉ splitlist m ->
  pieces rec = pcs
  /\ VarnodeData.space (unified rec) = getJoinSpace m
  /\ VarnodeData.offset (unified rec) = joinallocate m
  /\ VarnodeData.size (unified rec) = N.max (sum_sizes pcs) logicalsize
  /\ joinallocate m' = (joinallocate m + VarnodeData.size (unified rec))%N.
Proof.
  intros Hm Hcall Hfresh.
  destruct (findAddJoin_cases m pcs logicalsize (jc_same _ m Hm))
    as [(rec0 & Hin & _ & Heq)
       |(_ & rec0 & m0 & Heq & Hpcs & Huni & _ & _ & _ & Hcur)];
    rewrite Heq in Hcall; injection Hcall as <- <-; [done|].
  rewrite Huni, Hcur. by simpl.
Qed.

(** ** findJoin *)




(** ** The claims on the join space *)

(** C1: when a piece sequence is submitted to [findAddJoin] and, after any
    run of further calls, submitted again (whatever the logical sizes), the
    second call returns the record of the first and leaves the manager, and
    so the cursor [joinallocate], as it was; the manager holds at most one
    record for each piece sequence. *)
Theorem findAddJoin_same_pieces_same_record
  (m m1 m2 : AddrSpaceManager) (pcs : list VarnodeData.t) (logicalsize1 logicalsize2 : N)
  (rec : JoinRecord) (reqs : list (list VarnodeData.t * N)) (recs : list JoinRecord) :
  join_consistent getIndex m ->
  findAddJoin getIndex m pcs logicalsize1 = (rec, m1) ->
  findAddJoin_all getIndex m1 reqs = (recs, m2) ->
  findAddJoin getIndex m2 pcs logicalsize2 = (rec, m2)
  /\ joinallocate (snd (findAddJoin getIndex m2 pcs logicalsize2)) = joinallocate m2
  /\ (forall r r', r ∈ splitlist m2 -> r' ∈ splitlist m2 -> pieces r = pieces r' -> r = r').
Proof.
  intros Hm Hcall Hrun.
  destruct (findAddJoin_consistent _ _ _ _ _ Hm Hcall) as (Hm1 & Hin & Hpcs & _ & _).
  destruct (findAddJoin_all_consistent _ _ _ _ Hm1 Hrun) as (Hm2 & _ & Hkeep & _ & _).
  assert (Hagain : findAddJoin getIndex m2 pcs logicalsize2 = (rec, m2)).
  { destruct (findAddJoin_cases m2 pcs logicalsize2 (jc_same _ m2 Hm2))
      as [(rec' & Hin' & Hpcs' & Heq)|(Hfresh & _)].
    - rewrite Heq. f_equal.
      apply (join_unique m2); [done|done|by apply Hkeep|congruence].
    - exfalso. apply (Hfresh rec); [by apply Hkeep|done]. }
  split; [done|]. split; [by rewrite Hagain|].
  intros r r' Hr Hr' Heq. apply (join_unique m2); [done..|by rewrite Heq].
Qed.

(** ** Where the records of a run lie *)






(** The records that a run adds to the manager are those that its requests
    describe: the pieces of a request, and the larger of their total size and
    the logical size as the unified size. *)
Lemma findAddJoin_all_sizes
  (reqs : list (list VarnodeData.t * N)) (m m' : AddrSpaceManager) (recs : list JoinRecord) :
  join_consistent getIndex m ->
  findAddJoin_all getIndex m reqs = (recs, m') ->
  forall r, r ∈ splitlist m' ->
    r ∈ splitlist m
    \/ exists pcs logicalsize,
         (pcs, logicalsize) ∈ reqs /\ pieces r = pcs
         /\ VarnodeData.size (unified r) = N.max (sum_sizes pcs) logicalsize.
Proof.
  revert m recs. induction reqs as [|[pcs0 l0] reqs IH]; intros m recs Hm Hrun r Hr;
    simpl in Hrun.
  - injection Hrun as <- <-. by left.
  - destruct (findAddJoin getIndex m pcs0 l0) as [rec0 m1] eqn:Hcall.
    destruct (findAddJoin_all getIndex m1 reqs) as [recs1 m2] eqn:Hrest.
    injection Hrun as <- <-.
    destruct (findAddJoin_consistent _ _ _ _ _ Hm Hcall) as (Hm1 & _).
    destruct (IH _ _ Hm1 Hrest r Hr) as [Hr1|(pcs & l & Hin & Hpcs & Hsize)].
    + destruct (findAddJoin_cases m pcs0 l0 (jc_same _ m Hm))
        as [(rec1 & _ & _ & Heq)
           |(_ & rec1 & m0 & Heq & Hpcs & Huni & Hlist & _ & _ & _)];
        rewrite Heq in Hcall; injection Hcall as <- <-; [by left|].
      rewrite Hlist in Hr1. apply elem_of_app in Hr1 as [Hr1|Hr1]; [by left|].
      apply list_elem_of_singleton in Hr1 as ->.
      right. exists pcs0, l0. split; [by left|]. split; [done|].
      by rewrite Huni.
    + right. exists pcs, l. split; [by right|done].
Qed.


(** Two spaces of a manager never share an index. *)
Hypothesis getIndex_inj : forall spc spc', getIndex spc = getIndex spc' -> spc = spc'.


End JoinFacts.

(** ** The sample run *)


(** The manager is consistent when it is constructed. *)
Lemma join_consistent_new (getIndex : N -> Z) : join_consistent getIndex AddrSpaceManager_new.
Proof. by apply join_consistent_empty. Qed.

Lemma join_consistent_sample : join_consistent sample_index sample_manager.
Proof. by apply join_consistent_empty. Qed.


(** A request for [R0] alone with its own size as the logical size yields the
    one-piece record whose unified size is that of the piece. *)
Example sample_one_piece :
  fst (findAddJoin sample_index sample_manager [R0] 4) = one_piece_same_size.
Proof. reflexivity. Qed.

(** [findAddJoin([R1, R0], 8)] yields a unified 8-byte location at the start
    of the join space and moves the cursor to 8. *)
Example sample_first_record :
  fst sample_first = {| pieces := [R1; R0]; unified := VarnodeData.mk 12288 0 8 |}
  /\ joinallocate (snd sample_first) = 8%N.
Proof. split; reflexivity. Qed.

(** The records returned by the three further requests, the cursor after
    them and the set in its order: the float extension of [R0] at 8, the pair
    [R0, R1] at 16, and the first record again. *)
Example sample_run_records :
  fst sample_run =
    [ {| pieces := [R0]; unified := VarnodeData.mk 12288 8 8 |};
      {| pieces := [R0; R1]; unified := VarnodeData.mk 12288 16 8 |};
      {| pieces := [R1; R0]; unified := VarnodeData.mk 12288 0 8 |} ]
  /\ joinallocate (snd sample_run) = 24%N
  /\ splitset (snd sample_run) =
       [ {| pieces := [R0]; unified := VarnodeData.mk 12288 8 8 |};
         {| pieces := [R0; R1]; unified := VarnodeData.mk 12288 16 8 |};
         {| pieces := [R1; R0]; unified := VarnodeData.mk 12288 0 8 |} ]
  /\ splitlist (snd sample_run) =
       [ {| pieces := [R1; R0]; unified := VarnodeData.mk 12288 0 8 |};
         {| pieces := [R0]; unified := VarnodeData.mk 12288 8 8 |};
         {| pieces := [R0; R1]; unified := VarnodeData.mk 12288 16 8 |} ].
Proof. repeat split; reflexivity. Qed.

Example sample_findJoin :
  findJoin (snd sample_run) 0 = Some (fst sample_first)
  /\ findJoin (snd sample_run) 7 = Some (fst sample_first)
  /\ findJoin (snd sample_run) 8 = Some {| pieces := [R0]; unified := VarnodeData.mk 12288 8 8 |}
  /\ findJoin (snd sample_run) 24 = None.
Proof. repeat split; reflexivity. Qed.

(** Witness of C1: the pair [R1, R0] is submitted first, then three other
    requests, then the pair again. *)
Lemma findAddJoin_same_pieces_same_record_witness :
  findAddJoin sample_index (snd sample_run) [R1; R0] 8 = (fst sample_first, snd sample_run)
  /\ joinallocate (snd (findAddJoin sample_index (snd sample_run) [R1; R0] 8))
     = joinallocate (snd sample_run)
  /\ (forall r r', r ∈ splitlist (snd sample_run) -> r' ∈ splitlist (snd sample_run) ->
        pieces r = pieces r' -> r = r').
Proof.
  apply (findAddJoin_same_pieces_same_record sample_index
           sample_manager (snd sample_first) (snd sample_run)
           [R1; R0] 8 8 (fst sample_first) sample_requests (fst sample_run)).
  - exact join_consistent_sample.
  - reflexivity.
  - reflexivity.
Defined.



(** ** JoinRecord::isFloatExtension and the unified size *)

(** C3, as stated, fails in both parts: [isFloatExtension] holds of a record
    with one piece whose unified size equals the size of the piece, which is
    no float-extension record; and the record that
    [findAddJoin([R1, R0], 16)] makes has two pieces, so is no float-extension
    record either, with a unified size of 16 against 8 bytes of pieces. *)
Lemma isFloatExtension_not_float_extension :
  (isFloatExtension one_piece_same_size = true
   /\ float_extension_record one_piece_same_size = false
   /\ VarnodeData.size (unified one_piece_same_size) = sum_sizes (pieces one_piece_same_size))
  /\ (wide_pair = {| pieces := [R1; R0]; unified := VarnodeData.mk 12288 0 16 |}
      /\ isFloatExtension wide_pair = false
      /\ float_extension_record wide_pair = false
      /\ VarnodeData.size (unified wide_pair) = 16%N
      /\ sum_sizes (pieces wide_pair) = 8%N).
Proof. repeat split; reflexivity. Qed.

(** C3, amended: [isFloatExtension] returns true exactly when the record has
    exactly one piece; sizes are not compared.  So it is true of every
    float-extension record and false of every record that has no piece or
    several, and a record is a float-extension record exactly when
    [isFloatExtension] holds and the unified size exceeds the sum of the
    piece sizes.  A record that [findAddJoin] has added to a manager that
    held none has, as its unified size, the larger of the sum of the piece
    sizes and the logical size of the request that made it: never less than
    the sum, and the sum itself for a one-piece record that is no
    float-extension record. *)
Theorem isFloatExtension_one_piece
  (getIndex : N -> Z) (m : AddrSpaceManager) (reqs : list (list VarnodeData.t * N))
  (r : JoinRecord) :
  (isFloatExtension r = true <-> length (pieces r) = 1)
  /\ (float_extension_record r = true -> isFloatExtension r = true)
  /\ (isFloatExtension r = false -> float_extension_record r = false)
  /\ (float_extension_record r = true <->
      isFloatExtension r = true
      /\ (sum_sizes (pieces r) < VarnodeData.size (unified r))%N)
  /\ (splitset m = [] -> splitlist m = [] ->
      r ∈ splitlist (snd (findAddJoin_all getIndex m reqs)) ->
      (exists pcs logicalsize,
          (pcs, logicalsize) ∈ reqs /\ pieces r = pcs
          /\ VarnodeData.size (unified r) = N.max (sum_sizes pcs) logicalsize)
      /\ (sum_sizes (pieces r) <= VarnodeData.size (unified r))%N
      /\ (isFloatExtension r = true -> float_extension_record r = false ->
          VarnodeData.size (unified r) = sum_sizes (pieces r))).
Proof.
  pose proof (isFloatExtension_spec r) as Hone.
  pose proof (float_extension_record_spec r) as Hext.
  split; [exact Hone|].
  split; [tauto|].
  split.
  { intros Hfalse.
    destruct (float_extension_record r) eqn:E; [|done].
    assert (isFloatExtension r = true) by tauto. congruence. }
  split; [tauto|].
  intros Hset Hlist Hr.
  destruct (findAddJoin_all getIndex m reqs) as [recs m'] eqn:Hrun. simpl in Hr.
  destruct (findAddJoin_all_sizes getIndex reqs m m' recs
              (join_consistent_empty getIndex m Hset Hlist) Hrun r Hr)
    as [Hold|(pcs & l & Hin & Hpcs & Hsize)].
  { rewrite Hlist in Hold. by apply elem_of_nil in Hold. }
  assert (Hle : (sum_sizes (pieces r) <= VarnodeData.size (unified r))%N)
    by (rewrite Hsize, Hpcs; lia).
  split; [by exists pcs, l|]. split; [done|].
  intros Htrue Hnot.
  destruct (N.lt_ge_cases (sum_sizes (pieces r)) (VarnodeData.size (unified r)))
    as [Hlt|Hge]; [|lia].
  assert (float_extension_record r = true) by tauto. congruence.
Qed.

(** ** Requests without a byte *)

Example empty_run_records :
  fst empty_run =
    [ {| pieces := []; unified := VarnodeData.mk 12288 0 0 |};
      {| pieces := [empty_piece]; unified := VarnodeData.mk 12288 0 0 |};
      {| pieces := [R0]; unified := VarnodeData.mk 12288 0 4 |} ]
  /\ joinallocate (snd empty_run) = 4%N.
Proof. split; reflexivity. Qed.





(** * Further properties of the inline functions *)

(** ** Iterating over the spaces *)

Lemma iterateSpaces_defined (m : AddrSpaceManager) :
  Forall (fun o => exists spc, spc ∈ baselist m /\ o = Returns spc) (iterateSpaces m).
Proof.
  unfold iterateSpaces. apply Forall_fmap, Forall_seqZ. intros i Hi. simpl.
  pose proof (to_int4_le (Z.of_nat (length (baselist m)))) as Hle.
  unfold numSpaces in Hi.
  destruct (vector_at_in_range (baselist m) i) as (spc & Hspc & Hget); [lia|].
  exists spc. split; [|done]. by eapply list_elem_of_lookup_2.
Qed.

(** X1: the loop over [0 <= i < numSpaces()] never reads outside the list of
    spaces, whatever their number; and, when the number of spaces fits
    [int4], [getSpace] returns in it every space of the manager once, in the
    order of the list. *)
Theorem iterateSpaces_all (m : AddrSpaceManager) :
  Forall (fun o => exists spc, spc ∈ baselist m /\ o = Returns spc) (iterateSpaces m)
  /\ ((Z.of_nat (length (baselist m)) < 2 ^ 31)%Z ->
      iterateSpaces m = Returns <$> baselist m).
Proof.
  split; [apply iterateSpaces_defined|]. intros Hlen.
  unfold iterateSpaces. rewrite (numSpaces_small m Hlen).
  apply list_eq. intros i. rewrite !list_lookup_fmap.
  destruct (decide (i < length (baselist m))) as [Hi|Hi].
  - rewrite lookup_seqZ_lt by lia. simpl.
    destruct (vector_at_in_range (baselist m) (0 + Z.of_nat i)) as (spc & Hspc & Hget); [lia|].
    unfold getSpace. rewrite Hget.
    replace (Z.to_nat (0 + Z.of_nat i)) with i in Hspc by lia.
    by rewrite Hspc.
  - rewrite lookup_seqZ_ge by lia. by rewrite lookup_ge_None_2 by lia.
Qed.

Example iterateSpaces_sample :
  iterateSpaces sample_manager = [Returns 4096; Returns 8192; Returns 12288]%N.
Proof. reflexivity. Qed.

(** ** The pieces of a record *)

(** X2: [getPiece(i)] returns the [i]-th piece for [0 <= i < numPieces()];
    for an index outside the pieces, and so for every index of a record
    without pieces, the access is unchecked and no value is defined. *)
Theorem getPiece_bounds (r : JoinRecord) (i : Z) :
  ((0 <= i < numPieces r)%Z ->
     exists p, pieces r !! Z.to_nat i = Some p /\ getPiece r i = Returns p)
  /\ ((i < 0 \/ Z.of_nat (length (pieces r)) <= i)%Z -> getPiece r i = Undefined)
  /\ (pieces r = [] -> numPieces r = 0%Z /\ getPiece r i = Undefined).
Proof.
  split; [|split].
  - intros [Hlo Hhi]. apply vector_at_in_range.
    pose proof (to_int4_le (Z.of_nat (length (pieces r)))) as Hle.
    unfold numPieces in Hhi. lia.
  - apply vector_at_out_of_range.
  - intros Hnil. unfold numPieces, getPiece. rewrite Hnil. split; [done|].
    apply vector_at_out_of_range. simpl. lia.
Qed.

(** X3: a record for which [isFloatExtension] holds has [numPieces() == 1];
    its piece is [getPiece(0)], every other index is outside the pieces, and
    the sum of the piece sizes is the size of that piece. *)
Theorem isFloatExtension_single_piece (r : JoinRecord) :
  isFloatExtension r = true ->
  numPieces r = 1%Z
  /\ exists p, pieces r = [p]
       /\ getPiece r 0 = Returns p
       /\ (forall i, i <> 0%Z -> getPiece r i = Undefined)
       /\ sum_sizes (pieces r) = VarnodeData.size p.
Proof.
  intros Hone. apply isFloatExtension_spec in Hone.
  unfold numPieces, getPiece.
  destruct (pieces r) as [|p [|q ps]] eqn:Hps; simpl in Hone; try done.
  split; [done|]. exists p. split; [done|]. split; [done|]. split.
  - intros i Hi. apply vector_at_out_of_range. simpl. lia.
  - simpl. lia.
Qed.

Lemma isFloatExtension_single_piece_witness :
  numPieces one_piece_same_size = 1%Z
  /\ exists p, pieces one_piece_same_size = [p]
       /\ getPiece one_piece_same_size 0 = Returns p
       /\ (forall i, i <> 0%Z -> getPiece one_piece_same_size i = Undefined)
       /\ sum_sizes (pieces one_piece_same_size) = VarnodeData.size p.
Proof. apply (isFloatExtension_single_piece one_piece_same_size). reflexivity. Defined.

(** ** Runs of calls on a translator *)

Lemma setBigEndian_eta (t : Translate) (val : bool) :
  setBigEndian t val =
  {| manager := manager t; target_isbigendian := val; unique_base := unique_base t;
     alignment := alignment t; floatformats := floatformats t |}.
Proof. reflexivity. Qed.

Lemma setUniqueBase_eta (t : Translate) (val : N) :
  setUniqueBase t val =
  {| manager := manager t; target_isbigendian := target_isbigendian t;
     unique_base := N.max (unique_base t) val;
     alignment := alignment t; floatformats := floatformats t |}.
Proof.
  unfold setUniqueBase. destruct t as [m e u a f]; simpl.
  destruct (N.ltb_spec u val).
  - by rewrite N.max_r by lia.
  - by rewrite N.max_l by lia.
Qed.

Lemma setUniqueBase_comm (t : Translate) (a b : N) :
  setUniqueBase (setUniqueBase t a) b = setUniqueBase (setUniqueBase t b) a.
Proof. rewrite !setUniqueBase_eta. simpl. f_equal. lia. Qed.

Lemma setUniqueBase_all_perm (vals vals' : list N) :
  vals ≡ₚ vals' -> forall t, setUniqueBase_all t vals = setUniqueBase_all t vals'.
Proof.
  unfold setUniqueBase_all.
  induction 1 as [|x l l' _ IH|x y l|l l' l'' _ IH1 _ IH2]; intros t; simpl.
  - done.
  - apply IH.
  - by rewrite setUniqueBase_comm.
  - by rewrite IH1.
Qed.

(** X4: the state after [setUniqueBase] calls does not depend on their
    order: two calls commute, a call made twice counts once, and two runs
    with the same values in any order end in the same state. *)
Theorem setUniqueBase_order_free (t : Translate) (a b : N) :
  setUniqueBase (setUniqueBase t a) b = setUniqueBase (setUniqueBase t b) a
  /\ setUniqueBase (setUniqueBase t a) a = setUniqueBase t a
  /\ (forall vals vals', vals ≡ₚ vals' ->
        setUniqueBase_all t vals = setUniqueBase_all t vals').
Proof.
  split; [apply setUniqueBase_comm|]. split.
  - rewrite !setUniqueBase_eta. simpl. f_equal. lia.
  - intros vals vals' Hperm. by apply setUniqueBase_all_perm.
Qed.

Lemma calls_snoc (t : Translate) (cs : list TranslateCall) (c : TranslateCall) :
  calls t (cs ++ [c]) = call (calls t cs) c.
Proof. unfold calls. apply foldl_snoc. Qed.

(** The state after a run of calls: the endianness is the argument of the
    last [setBigEndian], the base of the unique space the largest argument of
    a [setUniqueBase], unless the initial values stand. *)
Lemma calls_state (cs : list TranslateCall) (t : Translate) :
  calls t cs =
  {| manager := manager t;
     target_isbigendian := default (target_isbigendian t) (last (bigEndian_args cs));
     unique_base := foldl N.max (unique_base t) (uniqueBase_args cs);
     alignment := alignment t;
     floatformats := floatformats t |}.
Proof.
  induction cs as [|c cs IH] using rev_ind.
  - by destruct t.
  - rewrite calls_snoc, IH. unfold bigEndian_args, uniqueBase_args.
    rewrite !omap_app.
    destruct c as [val|val|name sbit ebit|name val|val]; simpl;
      rewrite ?app_nil_r; try reflexivity.
    + by rewrite last_snoc.
    + rewrite setUniqueBase_eta, foldl_snoc. reflexivity.
Qed.

(** X5: no run of [setBigEndian], [setUniqueBase], [registerContext],
    [setContextDefault] and [allowContextSet] calls touches the address
    spaces, the alignment or the float formats: the manager is the same, so
    [numSpaces], [getSpace] and [getConstant] answer as before the run. *)
Theorem calls_keep_manager (t : Translate) (cs : list TranslateCall) :
  manager (calls t cs) = manager t
  /\ getAlignment (calls t cs) = getAlignment t
  /\ floatformats (calls t cs) = floatformats t
  /\ numSpaces (manager (calls t cs)) = numSpaces (manager t)
  /\ (forall i, getSpace (manager (calls t cs)) i = getSpace (manager t) i)
  /\ (forall val, getConstant (manager (calls t cs)) val = getConstant (manager t) val).
Proof. rewrite calls_state. repeat split. Qed.

Lemma foldl_max_le (vals : list N) (b b' : N) :
  (b <= b')%N -> (foldl N.max b vals <= foldl N.max b' vals)%N.
Proof.
  revert b b'. induction vals as [|v vals IH]; intros b b' Hle; simpl; [done|].
  apply IH. lia.
Qed.

(** X6: along any run of calls the base of the unique space never
    decreases, whatever calls are interleaved: it is at least the initial
    base and at least every value passed to [setUniqueBase], it is one of
    these values, and a longer run never ends with a smaller base. *)
Theorem calls_unique_base (t : Translate) (cs cs' : list TranslateCall) :
  getUniqueBase (calls t cs) = foldl N.max (getUniqueBase t) (uniqueBase_args cs)
  /\ (getUniqueBase t <= getUniqueBase (calls t cs))%N
  /\ (forall val, CallSetUniqueBase val ∈ cs -> (val <= getUniqueBase (calls t cs))%N)
  /\ (getUniqueBase (calls t cs) = getUniqueBase t
      \/ CallSetUniqueBase (getUniqueBase (calls t cs)) ∈ cs)
  /\ (getUniqueBase (calls t cs) <= getUniqueBase (calls t (cs ++ cs')))%N.
Proof.
  assert (Hargs : forall val cs0, val ∈ uniqueBase_args cs0 <-> CallSetUniqueBase val ∈ cs0).
  { intros val cs0. unfold uniqueBase_args. rewrite list_elem_of_omap. split.
    - intros (c & Hc & Hval). destruct c; simplify_eq. done.
    - intros Hc. by exists (CallSetUniqueBase val). }
  rewrite !calls_state. unfold getUniqueBase. simpl.
  destruct (foldl_max_bounds (uniqueBase_args cs) (unique_base t)) as (Hge & Hall & Hin).
  split; [done|]. split; [done|]. split; [|split].
  - intros val Hval. by apply Hall, Hargs.
  - destruct Hin as [Heq|Hin]; [by left|right; by apply Hargs].
  - unfold uniqueBase_args. rewrite omap_app, foldl_app.
    apply (proj1 (foldl_max_bounds _ _)).
Qed.

(** X7: after any run of calls [isBigEndian] returns the argument of the
    last [setBigEndian] call of the run, and the initial endianness when the
    run has none; the other calls do not change it. *)
Theorem calls_endianness (t : Translate) (cs cs' : list TranslateCall) (val : bool) :
  isBigEndian (calls t cs) = default (isBigEndian t) (last (bigEndian_args cs))
  /\ (bigEndian_args cs = [] -> isBigEndian (calls t cs) = isBigEndian t)
  /\ (bigEndian_args cs' = [] ->
        isBigEndian (calls t (cs ++ CallSetBigEndian val :: cs')) = val).
Proof.
  rewrite !calls_state. unfold isBigEndian. simpl.
  split; [done|]. split.
  - by intros ->.
  - intros Hnone.
    assert (Hargs : bigEndian_args (cs ++ CallSetBigEndian val :: cs')
                    = bigEndian_args cs ++ [val]).
    { change (CallSetBigEndian val :: cs') with ([CallSetBigEndian val] ++ cs').
      unfold bigEndian_args in *. by rewrite !omap_app, Hnone. }
    by rewrite Hargs, last_snoc.
Qed.

Example calls_sample :
  calls sample_translate
    [CallSetUniqueBase 16; CallSetBigEndian true; CallRegisterContext "mode" 0 3;
     CallSetUniqueBase 8; CallSetBigEndian false; CallSetContextDefault "mode" 1;
     CallAllowContextSet false]
  = {| manager := sample_manager; target_isbigendian := false; unique_base := 16%N;
       alignment := 1%Z; floatformats := [] |}.
Proof. reflexivity. Qed.
